(** * VS Code integration endpoints: chunk ingestion and status

    A shallow embedding of [vscode_integration.py]: the [CodeChunk] model, the
    [VSCodeIntegration] handler object with its [chunk_storage] dictionary,
    the two routes [receive_code_chunk] (POST /index/chunk) and
    [indexing_status] (GET /index/status), and [_process_chunk].

    Conventions of the embedding.
    - A Python [str] is a [string]; one character of the model stands for one
      character of the Python string, so [String.length] is [len].
    - A Python [int] is a [Z].
    - [self.chunk_storage] is a [gmap string (list StoredChunk)]; the handlers
      take the object and return the object they leave behind.
    - [datetime.utcnow().isoformat()] reads the clock: every read is an
      explicit argument.
    - Exceptions are values of [exn] carried by the [outcome] monad.
    - [json.loads] and pydantic's field validators are library code: a request
      carries what [json.loads] does on its body, and the validators are the
      members of the class [Pydantic].
    - [JSONResponse(content)] encodes its content as UTF-8 when it is built and
      raises [UnicodeEncodeError] on a lone surrogate; which characters of the
      alphabet are lone surrogates is a member of the class [Encoding]. *)

From stdpp Require Import gmap strings list fin_maps pretty.
From Stdlib Require Import ZArith Ascii.

Local Open Scope Z_scope.

(** ** Exceptions *)

Inductive exn : Type :=
| JSONDecodeError
| Exception (msg : string).

Inductive outcome (A : Type) : Type :=
| Return (a : A)
| Raise (e : exn).

Arguments Return {A} a.
Arguments Raise {A} e.

#[export] Instance outcome_ret : MRet outcome := λ A a, Return a.

#[export] Instance outcome_fmap : FMap outcome := λ A B f m,
  match m with
  | Return a => Return (f a)
  | Raise e => Raise e
  end.

#[export] Instance outcome_bind : MBind outcome := λ A B k m,
  match m with
  | Return a => k a
  | Raise e => Raise e
  end.

(** [str(e)] for the exceptions the handler formats.  [JSONDecodeError] is
    caught by its own clause and never formatted. *)
Definition str_exn (e : exn) : string :=
  match e with
  | JSONDecodeError => "JSONDecodeError"
  | Exception msg => msg
  end.

(** ** String operations of the Python source *)

(** [c in s] for a one-character [c]. *)
Fixpoint contains (c : ascii) (s : string) : bool :=
  match s with
  | EmptyString => false
  | String a s' => if Ascii.eqb a c then true else contains c s'
  end.

(** [s.split(sep)] for a one-character separator: the segments between the
    occurrences of [sep], the empty string giving one empty segment. *)
Fixpoint split (sep : ascii) (s : string) : list string :=
  match s with
  | EmptyString => [EmptyString]
  | String a s' =>
      if Ascii.eqb a sep then EmptyString :: split sep s'
      else match split sep s' with
           | [] => [String a EmptyString]
           | seg :: rest => String a seg :: rest
           end
  end.

(** [l[-1]]: the last item, [IndexError] on an empty list. *)
Definition last_item (l : list string) : outcome string :=
  match last l with
  | Some x => Return x
  | None => Raise (Exception "list index out of range")
  end.

(** [s.startswith(p)]. *)
Definition startswith (s p : string) : bool := String.prefix p s.

(** [s[n:]]. *)
Fixpoint slice_from (n : nat) (s : string) : string :=
  match n, s with
  | O, _ => s
  | S n', String _ s' => slice_from n' s'
  | S _, EmptyString => EmptyString
  end.

Definition dot : ascii := "."%char.
Definition newline : ascii := "010"%char.

(** ** JSON values, as [json.loads] builds them *)

#[warnings="-register-all"]
Inductive json : Type :=
| JNull
| JBool (b : bool)
| JInt (z : Z)
| JFloat (literal : string)
| JStr (s : string)
| JList (items : list json)
| JDict (items : list (string * json)).

(** Lookup in a loaded object; of two members with one name [json.loads]
    keeps the later. *)
Fixpoint dict_get (k : string) (items : list (string * json)) : option json :=
  match items with
  | [] => None
  | (k', v) :: rest =>
      match dict_get k rest with
      | Some w => Some w
      | None => if String.eqb k' k then Some v else None
      end
  end.

(** What [json.loads(body)] does on the body of a request. *)
Inductive loads : Type :=
| LoadsDecodeError
| LoadsError (msg : string)
| Loaded (chunk_data : json).

Definition json_loads (b : loads) : outcome json :=
  match b with
  | LoadsDecodeError => Raise JSONDecodeError
  | LoadsError msg => Raise (Exception msg)
  | Loaded j => Return j
  end.

(** ** The [CodeChunk] model *)

Record CodeChunk : Type := {
  path : string;
  idx : Z;
  content : string
}.

(** The validators pydantic runs on a field of type [str] and of type [int],
    and the text of the error raised for a rejected payload.  Whatever else
    they coerce, a string is a valid [str] and an integer a valid [int]. *)
Class Pydantic : Type := {
  str_validator : json → option string;
  int_validator : json → option Z;
  error_text : json → string;
  str_validator_str : ∀ s, str_validator (JStr s) = Some s;
  int_validator_int : ∀ z, int_validator (JInt z) = Some z
}.

(** Validation without coercion. *)
Definition strict_str (j : json) : option string :=
  match j with JStr s => Some s | _ => None end.

Definition strict_int (j : json) : option Z :=
  match j with JInt z => Some z | _ => None end.

#[export] Instance strict : Pydantic := {|
  str_validator := strict_str;
  int_validator := strict_int;
  error_text := λ _, "validation error for CodeChunk";
  str_validator_str := λ _, eq_refl;
  int_validator_int := λ _, eq_refl
|}.

Section Integration.

Context `{Pydantic}.

(** A required field: present and accepted by its validator. *)
Definition field {A : Type} (validator : json → option A) (name : string)
    (items : list (string * json)) : option A :=
  dict_get name items ≫= validator.

(** The constructor call of line 56, [chunk_data] unpacked into keyword
    arguments: [TypeError] when [chunk_data] is not a mapping,
    [ValidationError] when a required field is missing or rejected; members
    other than the three fields are ignored. *)
Definition CodeChunk_init (chunk_data : json) : outcome CodeChunk :=
  match chunk_data with
  | JDict items =>
      match field str_validator "path" items,
            field int_validator "idx" items,
            field str_validator "content" items with
      | Some p, Some i, Some c => Return {| path := p; idx := i; content := c |}
      | _, _, _ => Raise (Exception (error_text chunk_data))
      end
  | _ => Raise (Exception (error_text chunk_data))
  end.

End Integration.

(** ** The handler object *)

(** An item of a per-file list of [chunk_storage]. *)
Record StoredChunk : Type := {
  stored_idx : Z;
  stored_content : string;
  stored_timestamp : string
}.

Record VSCodeIntegration : Type := {
  auth_manager : option (string → bool);
  chunk_storage : gmap string (list StoredChunk)
}.

(** [VSCodeIntegration(mcp_server, auth_manager)]. *)
Definition init (am : option (string → bool)) : VSCodeIntegration :=
  {| auth_manager := am; chunk_storage := ∅ |}.

(** The dictionary [_process_chunk] returns. *)
Record ProcessingResult : Type := {
  file_path : string;
  chunk_index : Z;
  file_extension : string;
  content_length : nat;
  lines_count : nat;
  processed_at : string;
  language : string;
  analysis : string
}.

(** The dictionary [indexing_status] returns. *)
Record Status : Type := {
  service : string;
  status : string;
  timestamp : string;
  chunks_processed : nat;
  endpoints : list (string * string)
}.

Inductive Content : Type :=
| ErrorContent (error : string)
| ChunkContent (status message : string) (result : ProcessingResult)
| StatusContent (s : Status).

Record JSONResponse : Type := {
  response_content : Content;
  status_code : Z
}.

(** The characters a response cannot carry, and the text of the error raised
    for a content that has one.  A lone surrogate is never an ASCII
    character. *)
Class Encoding : Type := {
  surrogate : ascii → bool;
  UnicodeEncodeError_text : Content → string;
  surrogate_not_ascii : ∀ c, surrogate c = true → (128 <=? nat_of_ascii c)%nat = true
}.

(** An alphabet whose last character stands for a lone surrogate. *)
#[export] Instance last_is_surrogate : Encoding.
Proof.
  refine {| surrogate := λ c, Ascii.eqb c "255"%char;
            UnicodeEncodeError_text := λ _,
              "'utf-8' codec can't encode character: surrogates not allowed" |}.
  intros c Hc. apply Ascii.eqb_eq in Hc. subst c. reflexivity.
Defined.

Section Handlers.

Context `{Pydantic} `{Encoding}.

(** [s.encode("utf-8")] succeeds. *)
Fixpoint encodes (s : string) : bool :=
  match s with
  | EmptyString => true
  | String a s' => negb (surrogate a) && encodes s'
  end.

(** The body of a response can be encoded: every string of the content can.
    The texts read from the clock are left out, [isoformat()] giving ASCII
    digits and punctuation only. *)
Definition renders (c : Content) : bool :=
  match c with
  | ErrorContent error => encodes error
  | ChunkContent status message result =>
      encodes status && encodes message &&
      encodes (file_path result) && encodes (file_extension result) &&
      encodes (language result) && encodes (analysis result)
  | StatusContent s =>
      encodes (service s) && encodes (status s) &&
      forallb (λ kv, encodes kv.1 && encodes kv.2) (endpoints s)
  end.

(** [JSONResponse(content)]: the body is encoded by the constructor, which
    answers 200 or raises [UnicodeEncodeError]. *)
Definition json_response (c : Content) : outcome JSONResponse :=
  if renders c then Return {| response_content := c; status_code := 200 |}
  else Raise (Exception (UnicodeEncodeError_text c)).

(** What the handler reads of a request: its body through [json.loads] and
    [request.headers.get("Authorization")]. *)
Record Request : Type := {
  body : loads;
  authorization : option string
}.

(** The two clock reads of [_process_chunk], in program order. *)
Record Clock : Type := {
  now_stored : string;
  now_processed : string
}.

(** ** [_process_chunk] *)

(** Lines 135-143: the list of [file_key] is created when absent, then the
    new item is appended to it. *)
Definition store (storage : gmap string (list StoredChunk)) (chunk : CodeChunk)
    (now : string) : gmap string (list StoredChunk) :=
  let file_key := path chunk in
  let storage1 :=
    match storage !! file_key with
    | None => <[file_key := []]> storage
    | Some _ => storage
    end in
  match storage1 !! file_key with
  | Some items =>
      <[file_key := items ++ [{| stored_idx := idx chunk;
                                 stored_content := content chunk;
                                 stored_timestamp := now |}]]> storage1
  | None => storage1
  end.

(** Line 146. *)
Definition extension_of (p : string) : outcome string :=
  if contains dot p then last_item (split dot p) else Return "".

(** Lines 160-170. *)
Definition language_of (ext : string) : string * string :=
  if String.eqb ext "py" then ("python", "Python file processed")
  else if String.eqb ext "ts" || String.eqb ext "js"
       then ("typescript/javascript", "TypeScript/JavaScript file processed")
       else ("generic", "Generic file processed").

Definition _process_chunk (self : VSCodeIntegration) (chunk : CodeChunk)
    (clock : Clock) : VSCodeIntegration * outcome ProcessingResult :=
  let self' := {| auth_manager := auth_manager self;
                  chunk_storage := store (chunk_storage self) chunk
                                         (now_stored clock) |} in
  (self',
   ext ← extension_of (path chunk) ;
   Return {| file_path := path chunk;
             chunk_index := idx chunk;
             file_extension := ext;
             content_length := String.length (content chunk);
             lines_count := length (split newline (content chunk));
             processed_at := now_processed clock;
             language := (language_of ext).1;
             analysis := (language_of ext).2 |}).

(** ** POST /index/chunk *)

(** Lines 62-75: [None] lets the request through, [Some r] answers [r]. *)
Definition authenticate (self : VSCodeIntegration) (request : Request)
    : option JSONResponse :=
  match auth_manager self with
  | None => None
  | Some validate_api_key =>
      match authorization request with
      | Some auth_header =>
          if startswith auth_header "Bearer " then
            let api_key := slice_from 7 auth_header in
            if validate_api_key api_key then None
            else Some {| response_content := ErrorContent "Invalid API key";
                         status_code := 401 |}
          else Some {| response_content :=
                         ErrorContent "Authorization header required";
                       status_code := 401 |}
      | None => Some {| response_content :=
                          ErrorContent "Authorization header required";
                        status_code := 401 |}
      end
  end.

(** Lines 54-56. *)
Definition parse_chunk (request : Request) : outcome CodeChunk :=
  chunk_data ← json_loads (body request) ; CodeChunk_init chunk_data.

(** The body of the [try]: the object left behind, and the response returned
    or the exception raised.  The response of line 80 is built after
    [_process_chunk] has stored the chunk. *)
Definition receive_code_chunk_try (self : VSCodeIntegration) (request : Request)
    (clock : Clock) : VSCodeIntegration * outcome JSONResponse :=
  match parse_chunk request with
  | Raise e => (self, Raise e)
  | Return chunk =>
      match authenticate self request with
      | Some rejection => (self, Return rejection)
      | None =>
          let '(self', r) := _process_chunk self chunk clock in
          (self',
           result ← r ;
           json_response
             (ChunkContent "ok"
                ("Processed chunk " +:+ pretty (idx chunk) +:+ " from " +:+ path chunk)
                result))
      end
  end.

(** The [except] clauses of lines 86-97.  The texts of exceptions are ASCII
    (a lone surrogate of the input is written as an escape), so these
    responses are always built. *)
Definition respond (r : outcome JSONResponse) : JSONResponse :=
  match r with
  | Return response => response
  | Raise JSONDecodeError =>
      {| response_content := ErrorContent "Invalid JSON"; status_code := 400 |}
  | Raise e =>
      {| response_content := ErrorContent ("Processing error: " +:+ str_exn e);
         status_code := 500 |}
  end.

Definition receive_code_chunk (self : VSCodeIntegration) (request : Request)
    (clock : Clock) : VSCodeIntegration * JSONResponse :=
  let '(self', r) := receive_code_chunk_try self request clock in
  (self', respond r).

(** ** GET /index/status *)

Definition indexing_status (self : VSCodeIntegration) (now : string)
    : JSONResponse :=
  match
    json_response (StatusContent
      {| service := "vscode-mcp-integration";
         status := "healthy";
         timestamp := now;
         chunks_processed := size (chunk_storage self);
         endpoints := [("POST /index/chunk", "Receive code chunks from VS Code");
                       ("GET /index/status", "Get indexing status")] |})
  with
  | Return response => response
  | Raise e =>
      {| response_content := ErrorContent ("Status error: " +:+ str_exn e);
         status_code := 500 |}
  end.

End Handlers.

(** ** Observations on the handler object and on responses *)

(** The list stored for a file, empty when the file has none. *)
Definition log (self : VSCodeIntegration) (p : string) : list StoredChunk :=
  default [] (chunk_storage self !! p).

(** The number of items stored, over all files. *)
Definition total_records (self : VSCodeIntegration) : nat :=
  map_fold (λ _ items n, (length items + n)%nat) 0%nat (chunk_storage self).

(** The item [_process_chunk] appends for [chunk]. *)
Definition stored_chunk (chunk : CodeChunk) (clock : Clock) : StoredChunk :=
  {| stored_idx := idx chunk;
     stored_content := content chunk;
     stored_timestamp := now_stored clock |}.

(** The [chunks_processed] member of a status response. *)
Definition reported (r : JSONResponse) : option nat :=
  match response_content r with
  | StatusContent s => Some (chunks_processed s)
  | _ => None
  end.

(** The [result] member of a success response. *)
Definition result_of (r : JSONResponse) : option ProcessingResult :=
  match response_content r with
  | ChunkContent _ _ result => Some result
  | _ => None
  end.

(** The [error] member of an error response. *)
Definition error_of (r : JSONResponse) : option string :=
  match response_content r with
  | ErrorContent e => Some e
  | _ => None
  end.

(** The token of an [Authorization] header of the form [Bearer <token>]. *)
Definition presented_token (request : Request) : option string :=
  match authorization request with
  | Some auth_header =>
      if startswith auth_header "Bearer " then Some (slice_from 7 auth_header)
      else None
  | None => None
  end.

(** A request the handler answers before [_process_chunk]: its body does not
    give a [CodeChunk], or authentication turns it down. *)
Definition rejects `{Pydantic} (self : VSCodeIntegration) (request : Request)
    : bool :=
  match parse_chunk request with
  | Raise _ => true
  | Return _ => bool_decide (is_Some (authenticate self request))
  end.

(** A well-formed body for [path], [idx] and [content], sent without an
    [Authorization] header. *)
Definition chunk_body (p : string) (i : Z) (c : string) : loads :=
  Loaded (JDict [("path", JStr p); ("idx", JInt i); ("content", JStr c)]).

Definition submit (p : string) (i : Z) (c : string) : Request :=
  {| body := chunk_body p i c; authorization := None |}.

(** Requests handled one after the other, each with its clock reads. *)
Fixpoint serve `{Pydantic} `{Encoding} (self : VSCodeIntegration)
    (requests : list (Request * Clock)) : VSCodeIntegration :=
  match requests with
  | [] => self
  | (request, clock) :: rest =>
      serve (receive_code_chunk self request clock).1 rest
  end.

(** Clock reads and a key checker used in worked examples. *)
Definition clock0 : Clock :=
  {| now_stored := "2024-01-01T00:00:00.000001";
     now_processed := "2024-01-01T00:00:00.000002" |}.

Definition only_secret (api_key : string) : bool := String.eqb api_key "secret".

(** ** Calls to the logger *)

Inductive level : Type := INFO | ERROR.

(** A call [logger.info(text)] or [logger.error(text)]. *)
Record LogCall : Type := {
  call_level : level;
  call_text : string
}.

Definition logger_info (text : string) : LogCall :=
  {| call_level := INFO; call_text := text |}.

Definition logger_error (text : string) : LogCall :=
  {| call_level := ERROR; call_text := text |}.

(** The calls [_process_chunk] makes: line 172 when it returns, line 176 when
    it raises. *)
Definition _process_chunk_calls (self : VSCodeIntegration) (chunk : CodeChunk)
    (clock : Clock) : list LogCall :=
  match (_process_chunk self chunk clock).2 with
  | Return _ =>
      [logger_info ("Successfully processed chunk " +:+ pretty (idx chunk) +:+
                    " from " +:+ path chunk)]
  | Raise e => [logger_error ("Error in _process_chunk: " +:+ str_exn e)]
  end.

(** The calls [receive_code_chunk] makes, in program order: lines 58-59 once
    the chunk is built, those of [_process_chunk] once authentication has
    passed, and line 87 or line 93 in the [except] clauses, the latter also
    when the response of line 80 cannot be built. *)
Definition receive_code_chunk_calls `{Pydantic} `{Encoding}
    (self : VSCodeIntegration)
    (request : Request) (clock : Clock) : list LogCall :=
  match parse_chunk request with
  | Raise JSONDecodeError => [logger_error "Invalid JSON in request body"]
  | Raise e => [logger_error ("Error processing chunk: " +:+ str_exn e)]
  | Return chunk =>
      [logger_info ("Received chunk " +:+ pretty (idx chunk) +:+ " from " +:+
                    path chunk);
       logger_info ("Content length: " +:+
                    pretty (String.length (content chunk)) +:+ " characters")] ++
      match authenticate self request with
      | Some _ => []
      | None =>
          _process_chunk_calls self chunk clock ++
          match (receive_code_chunk_try self request clock).2 with
          | Return _ => []
          | Raise JSONDecodeError =>
              [logger_error "Invalid JSON in request body"]
          | Raise e => [logger_error ("Error processing chunk: " +:+ str_exn e)]
          end
      end
  end.

(** ** Registration *)

(** The two handlers [register_endpoints] defines. *)
Inductive Endpoint : Type := Receive_code_chunk | Indexing_status.

(** A call [mcp_server.custom_route(path, methods=methods)] decorating a
    handler. *)
Record Route : Type := {
  route_path : string;
  route_methods : list string;
  route_endpoint : Endpoint
}.

(** The calls [register_endpoints] makes on the server, in program order. *)
Definition register_endpoints : list Route :=
  [{| route_path := "/index/chunk"; route_methods := ["POST"];
      route_endpoint := Receive_code_chunk |};
   {| route_path := "/index/status"; route_methods := ["GET"];
      route_endpoint := Indexing_status |}].

(** [add_vscode_integration(mcp_server, auth_manager)]: the object returned,
    the routes registered on the server and the calls to the logger. *)
Definition add_vscode_integration (am : option (string → bool))
    : VSCodeIntegration * list Route * list LogCall :=
  (init am, register_endpoints,
   [logger_info "VS Code integration endpoints registered:";
    logger_info "  - POST /index/chunk (receive code chunks)";
    logger_info "  - GET /index/status (indexing status)"]).

(** The name under which the status response describes a route. *)
Definition route_names (r : Route) : list string :=
  (λ method, method +:+ " " +:+ route_path r) <$> route_methods r.

(** ** Requests in sequence *)

(** The chunks that reach [_process_chunk], in arrival order, each with the
    clock reads of its request: those of the requests whose body gives a
    chunk and that authentication lets through. *)
Fixpoint processed `{Pydantic} `{Encoding} (self : VSCodeIntegration)
    (requests : list (Request * Clock)) : list (CodeChunk * Clock) :=
  match requests with
  | [] => []
  | (request, clock) :: rest =>
      match parse_chunk request with
      | Return chunk =>
          if rejects self request then [] else [(chunk, clock)]
      | Raise _ => []
      end ++ processed (receive_code_chunk self request clock).1 rest
  end.

(** The status code of the answer to a chunk that reached [_process_chunk]:
    200, or 500 when the response naming its path cannot be encoded. *)
Definition processed_code `{Encoding} (chunk : CodeChunk) : Z :=
  if encodes (path chunk) then 200 else 500.

(** The content of the response of line 80 for [chunk] and the dictionary
    [_process_chunk] returned for it. *)
Definition success_content (chunk : CodeChunk) (result : ProcessingResult)
    : Content :=
  ChunkContent "ok"
    ("Processed chunk " +:+ pretty (idx chunk) +:+ " from " +:+ path chunk)
    result.

(** The answer to a chunk that reached [_process_chunk]: the response of
    line 80, or that of line 94 when line 80 raises. *)
Definition processed_answer `{Encoding} (chunk : CodeChunk)
    (result : ProcessingResult) : JSONResponse :=
  if encodes (path chunk)
  then {| response_content := success_content chunk result;
          status_code := 200 |}
  else {| response_content :=
            ErrorContent ("Processing error: " +:+
                          UnicodeEncodeError_text (success_content chunk result));
          status_code := 500 |}.

(** Every character is an ASCII character. *)
Fixpoint ascii_only (s : string) : bool :=
  match s with
  | EmptyString => true
  | String a s' => (nat_of_ascii a <? 128)%nat && ascii_only s'
  end.

(** The number of occurrences of a character. *)
Fixpoint count_char (c : ascii) (s : string) : nat :=
  match s with
  | EmptyString => 0%nat
  | String a s' => ((if Ascii.eqb a c then 1 else 0) + count_char c s')%nat
  end.

(** ** Strings *)

Lemma split_nonempty sep s : split sep s ≠ [].
Proof.
  destruct s as [|a s]; simpl; [done|].
  destruct (Ascii.eqb a sep); [done|].
  by destruct (split sep s).
Qed.

Lemma split_length_pos sep s : (1 ≤ length (split sep s))%nat.
Proof.
  pose proof (split_nonempty sep s) as Hne.
  destruct (split sep s); [done | simpl; lia].
Qed.

Lemma split_no_sep sep s : contains sep s = false → split sep s = [s].
Proof.
  induction s as [|a s IH]; simpl; [done|].
  destruct (Ascii.eqb a sep); [done|].
  intros Hs. by rewrite (IH Hs).
Qed.

Lemma split_app_sep sep a b :
  split sep (a +:+ String sep b) = split sep a ++ split sep b.
Proof.
  induction a as [|c a IH]; simpl.
  - by rewrite Ascii.eqb_refl.
  - destruct (Ascii.eqb c sep); [by rewrite IH|].
    rewrite IH. pose proof (split_nonempty sep a) as Hne.
    by destruct (split sep a).
Qed.

Lemma last_sep_decomp sep s :
  contains sep s = true →
  ∃ pre ext, s = pre +:+ String sep ext ∧ contains sep ext = false.
Proof.
  induction s as [|c s IH]; simpl; [done|].
  destruct (contains sep s) eqn:Hs.
  - intros _. destruct (IH eq_refl) as (pre & ext & -> & Hext).
    by exists (String c pre), ext.
  - destruct (Ascii.eqb c sep) eqn:Hc; [|done].
    intros _. apply Ascii.eqb_eq in Hc as ->. by exists EmptyString, s.
Qed.

Lemma last_split_suffix sep pre ext :
  contains sep ext = false →
  last (split sep (pre +:+ String sep ext)) = Some ext.
Proof.
  intros Hext. rewrite split_app_sep, (split_no_sep _ _ Hext).
  apply last_snoc.
Qed.

(** Line 146 never raises, and yields the text after the last dot. *)
Lemma extension_of_spec p :
  ∃ ext, extension_of p = Return ext ∧ contains dot ext = false ∧
    ((contains dot p = false ∧ ext = "") ∨
     (∃ pre, p = pre +:+ "." +:+ ext)).
Proof.
  unfold extension_of. destruct (contains dot p) eqn:Hp.
  - destruct (last_sep_decomp _ _ Hp) as (pre & ext & -> & Hext).
    exists ext. unfold last_item. rewrite (last_split_suffix _ _ _ Hext).
    split_and!; [done..|]. right. by exists pre.
  - exists "". split_and!; [done..|]. by left.
Qed.

(** ** Encoding *)

Section EncodingFacts.

Context `{Encoding}.

Lemma surrogate_ascii c :
  (nat_of_ascii c <? 128)%nat = true → surrogate c = false.
Proof.
  intros Hc. destruct (surrogate c) eqn:Hs; [|done].
  apply surrogate_not_ascii in Hs.
  apply Nat.ltb_lt in Hc. apply Nat.leb_le in Hs. lia.
Qed.

Lemma encodes_ascii_only s : ascii_only s = true → encodes s = true.
Proof.
  induction s as [|a s IH]; simpl; [done|].
  intros [Ha Hs]%andb_prop. by rewrite (surrogate_ascii a Ha), IH.
Qed.

Lemma encodes_app a b : encodes (a +:+ b) = encodes a && encodes b.
Proof.
  induction a as [|c a IH]; simpl; [done|].
  by rewrite IH, andb_assoc.
Qed.

Lemma encodes_pretty_N_go x s :
  encodes s = true → encodes (pretty_N_go x s) = true.
Proof.
  revert s. induction (N.lt_wf_0 x) as [x _ IH]; intros s Hs.
  assert (x = 0 ∨ 0 < x)%N as [->|Hx] by lia.
  - by rewrite pretty_N_go_0.
  - rewrite pretty_N_go_step by done. apply IH; [by apply N.div_lt|].
    simpl. rewrite Hs, surrogate_ascii; [done|].
    unfold pretty_N_char. by repeat case_match.
Qed.

Lemma encodes_pretty (z : Z) : encodes (pretty z) = true.
Proof.
  assert (∀ x : N, encodes (pretty x) = true) as HN.
  { intros x. unfold pretty, pretty_N.
    case_decide; [by apply encodes_ascii_only|].
    by apply encodes_pretty_N_go. }
  destruct z as [|q|q]; [by apply encodes_ascii_only|apply HN|].
  change (encodes ("-" +:+ pretty (Npos q)) = true).
  rewrite encodes_app, HN. by rewrite encodes_ascii_only.
Qed.

Lemma extension_of_encodes p ext :
  extension_of p = Return ext → encodes p = true → encodes ext = true.
Proof.
  intros Hp Henc. destruct (extension_of_spec p) as (ext' & Hext' & _ & Hshape).
  rewrite Hp in Hext'. injection Hext' as <-.
  destruct Hshape as [[_ ->]|[pre ->]]; [done|].
  rewrite !encodes_app in Henc. by apply andb_prop in Henc as [_ [_ ?]%andb_prop].
Qed.

Lemma language_of_encodes ext :
  encodes (language_of ext).1 = true ∧ encodes (language_of ext).2 = true.
Proof.
  unfold language_of.
  repeat case_match; cbn [fst snd]; split; by apply encodes_ascii_only.
Qed.

End EncodingFacts.

(** ** Storage *)

(** Lines 135-143 as one update of the dictionary. *)
Lemma store_insert storage chunk now :
  store storage chunk now =
  <[path chunk := default [] (storage !! path chunk) ++
      [{| stored_idx := idx chunk; stored_content := content chunk;
          stored_timestamp := now |}]]> storage.
Proof.
  unfold store. destruct (storage !! path chunk) as [items|] eqn:Hk; simpl.
  - by rewrite Hk.
  - by rewrite lookup_insert_eq, insert_insert_eq.
Qed.

Lemma store_size storage chunk now :
  size (store storage chunk now) =
  if storage !! path chunk is Some _ then size storage else S (size storage).
Proof.
  rewrite store_insert. destruct (storage !! path chunk) as [items|] eqn:Hk.
  - by apply map_size_insert_Some.
  - by apply map_size_insert_None.
Qed.

Lemma process_chunk_storage self chunk clock :
  chunk_storage (_process_chunk self chunk clock).1 =
  <[path chunk := log self (path chunk) ++ [stored_chunk chunk clock]]>
    (chunk_storage self).
Proof. unfold _process_chunk, log, stored_chunk. simpl. apply store_insert. Qed.

Lemma process_chunk_log self chunk clock p :
  log (_process_chunk self chunk clock).1 p =
  if decide (path chunk = p) then log self p ++ [stored_chunk chunk clock]
  else log self p.
Proof.
  unfold log at 1. rewrite process_chunk_storage, lookup_insert.
  case_decide; by simplify_eq.
Qed.

Lemma process_chunk_auth self chunk clock :
  auth_manager (_process_chunk self chunk clock).1 = auth_manager self.
Proof. done. Qed.

(** [_process_chunk] returns its dictionary: no path of it raises. *)
Lemma process_chunk_returns self chunk clock :
  ∃ r, (_process_chunk self chunk clock).2 = Return r ∧
    extension_of (path chunk) = Return (file_extension r) ∧
    file_path r = path chunk ∧ chunk_index r = idx chunk ∧
    content_length r = String.length (content chunk) ∧
    lines_count r = length (split newline (content chunk)) ∧
    processed_at r = now_processed clock ∧
    language r = (language_of (file_extension r)).1 ∧
    analysis r = (language_of (file_extension r)).2.
Proof.
  destruct (extension_of_spec (path chunk)) as (ext & Hext & _).
  unfold _process_chunk. simpl. rewrite Hext. simpl.
  eexists. split; [done|]. by simpl.
Qed.

(** ** The chunk route *)

Lemma authenticate_rejection self request r :
  authenticate self request = Some r →
  status_code r = 401 ∧ is_Some (error_of r).
Proof.
  unfold authenticate, error_of. intros Hr.
  repeat case_match; simplify_eq; simpl; eauto.
Qed.

Section Route.

Context `{Pydantic} `{Encoding}.

Lemma CodeChunk_init_chunk_body p i c :
  parse_chunk {| body := chunk_body p i c; authorization := None |} =
  Return {| path := p; idx := i; content := c |}.
Proof.
  unfold parse_chunk, chunk_body. simpl. unfold field. simpl.
  by rewrite !str_validator_str, int_validator_int.
Qed.

(** The response of line 80 can be built exactly when the path can be
    encoded: the other strings of it are ASCII or parts of the path. *)
Lemma process_chunk_renders self chunk clock r :
  (_process_chunk self chunk clock).2 = Return r →
  renders (success_content chunk r) = encodes (path chunk).
Proof.
  intros Hr.
  destruct (process_chunk_returns self chunk clock)
    as (r' & Hr' & Hext & Hpath & _ & _ & _ & _ & Hlang & Han).
  rewrite Hr in Hr'. injection Hr' as <-.
  unfold renders, success_content.
  rewrite !encodes_app, encodes_pretty, Hpath, Hlang, Han.
  destruct (language_of_encodes (file_extension r)) as [-> ->].
  rewrite !(encodes_ascii_only "ok"), !(encodes_ascii_only "Processed chunk "),
    !(encodes_ascii_only " from ") by done.
  destruct (encodes (path chunk)) eqn:Hp; [|done].
  by rewrite (extension_of_encodes _ _ Hext Hp).
Qed.

Lemma respond_json_response self chunk clock r :
  (_process_chunk self chunk clock).2 = Return r →
  respond (json_response (success_content chunk r)) = processed_answer chunk r.
Proof.
  intros Hr. unfold json_response, processed_answer.
  rewrite (process_chunk_renders _ _ _ _ Hr).
  by destruct (encodes (path chunk)).
Qed.

Lemma processed_answer_code chunk r :
  status_code (processed_answer chunk r) = processed_code chunk.
Proof. unfold processed_answer, processed_code. by case_match. Qed.

(** The two ways a request leaves the handler: turned down with the object
    as it was, or processed with one item appended and then answered. *)
Lemma receive_code_chunk_cases self request clock :
  (rejects self request = true ∧
   ∃ response, receive_code_chunk self request clock = (self, response) ∧
     (status_code response = 400 ∨ status_code response = 401 ∨
      status_code response = 500) ∧
     is_Some (error_of response)) ∨
  (rejects self request = false ∧
   ∃ chunk r,
     parse_chunk request = Return chunk ∧
     authenticate self request = None ∧
     (_process_chunk self chunk clock).2 = Return r ∧
     receive_code_chunk self request clock =
       ((_process_chunk self chunk clock).1, processed_answer chunk r)).
Proof.
  unfold receive_code_chunk, receive_code_chunk_try, rejects.
  destruct (parse_chunk request) as [chunk|e] eqn:Hparse.
  - destruct (authenticate self request) as [rejection|] eqn:Hauth.
    + left. split; [by apply bool_decide_eq_true|].
      destruct (authenticate_rejection _ _ _ Hauth) as [H401 Herr].
      exists rejection. split_and!; auto.
    + right. split; [apply bool_decide_eq_false; by intros [??]|].
      destruct (process_chunk_returns self chunk clock) as (r & Hr & _).
      rewrite (surjective_pairing (_process_chunk self chunk clock)), Hr.
      exists chunk, r. split_and!; [done..|].
      f_equal. apply (respond_json_response _ _ _ _ Hr).
  - left. split; [done|]. destruct e; eexists; (split; [done|]); simpl; eauto.
Qed.

Lemma rejected_code self request clock :
  rejects self request = true →
  (receive_code_chunk self request clock).1 = self ∧
  status_code (receive_code_chunk self request clock).2 ≠ 200.
Proof.
  intros Hrej.
  destruct (receive_code_chunk_cases self request clock)
    as [(_ & response & -> & Hcode & _)|(Hacc & _)]; [|congruence].
  split; [done|]. simpl. intros H200. rewrite H200 in Hcode.
  by destruct Hcode as [?|[?|?]].
Qed.

End Route.

(** ** Submissions to an object without authentication *)

Section Submissions.

Context `{Pydantic} `{Encoding}.

Lemma receive_submit storage p i c clock :
  receive_code_chunk {| auth_manager := None; chunk_storage := storage |}
    (submit p i c) clock =
  let self := {| auth_manager := None; chunk_storage := storage |} in
  let chunk := {| path := p; idx := i; content := c |} in
  ((_process_chunk self chunk clock).1,
   respond (result ← (_process_chunk self chunk clock).2;
            json_response (success_content chunk result))).
Proof.
  unfold receive_code_chunk, receive_code_chunk_try, submit.
  by rewrite CodeChunk_init_chunk_body.
Qed.

Lemma receive_submit_answer storage p i c clock :
  let self := {| auth_manager := None; chunk_storage := storage |} in
  let chunk := {| path := p; idx := i; content := c |} in
  ∃ r, (_process_chunk self chunk clock).2 = Return r ∧
    receive_code_chunk self (submit p i c) clock =
    ((_process_chunk self chunk clock).1, processed_answer chunk r).
Proof.
  cbv zeta. rewrite receive_submit. cbv zeta.
  destruct (process_chunk_returns
    {| auth_manager := None; chunk_storage := storage |}
    {| path := p; idx := i; content := c |} clock) as (r & Hr & _).
  exists r. split; [done|]. rewrite Hr. f_equal.
  apply (respond_json_response _ _ _ _ Hr).
Qed.

Lemma receive_submit_code storage p i c clock :
  status_code
    (receive_code_chunk {| auth_manager := None; chunk_storage := storage |}
       (submit p i c) clock).2 =
  if encodes p then 200 else 500.
Proof.
  destruct (receive_submit_answer storage p i c clock) as (r & _ & ->).
  cbn [snd]. by rewrite processed_answer_code.
Qed.

Lemma receive_submit_object storage p i c clock :
  (receive_code_chunk {| auth_manager := None; chunk_storage := storage |}
     (submit p i c) clock).1 =
  {| auth_manager := None;
     chunk_storage :=
       store storage {| path := p; idx := i; content := c |} (now_stored clock) |}.
Proof. by rewrite receive_submit. Qed.

Lemma serve_submit storage p i c clock rest :
  serve {| auth_manager := None; chunk_storage := storage |}
    ((submit p i c, clock) :: rest) =
  serve {| auth_manager := None;
           chunk_storage :=
             store storage {| path := p; idx := i; content := c |}
                   (now_stored clock) |} rest.
Proof. simpl. by rewrite receive_submit_object. Qed.

End Submissions.

(** The status response is always built: its strings are ASCII. *)
Lemma indexing_status_response `{Encoding} self now :
  indexing_status self now =
  {| response_content :=
       StatusContent
         {| service := "vscode-mcp-integration";
            status := "healthy";
            timestamp := now;
            chunks_processed := size (chunk_storage self);
            endpoints :=
              [("POST /index/chunk", "Receive code chunks from VS Code");
               ("GET /index/status", "Get indexing status")] |};
     status_code := 200 |}.
Proof.
  unfold indexing_status, json_response, renders.
  cbn [service status endpoints forallb fst snd].
  by rewrite !encodes_ascii_only by done.
Qed.

Lemma indexing_status_count `{Encoding} self now :
  reported (indexing_status self now) = Some (size (chunk_storage self)).
Proof. by rewrite indexing_status_response. Qed.

Lemma indexing_status_reported `{Encoding} self now :
  status_code (indexing_status self now) = 200 ∧
  reported (indexing_status self now) = Some (size (chunk_storage self)).
Proof. by rewrite indexing_status_response. Qed.

(** ** The status count *)

(** C1 (the code departs from it).  The claim: [chunks_processed] is the
    number of stored records over all files, 2 after two successful
    submissions.  The code reports [len(self.chunk_storage)], the number of
    files: two submissions for one file are both answered 200 and leave two
    records, and the status route reports 1. *)
Theorem status_reports_files_not_chunks `{Pydantic} `{Encoding} clock1 clock2 now :
  let first := submit "/a/b.py" 0 "x=1" in
  let second := submit "/a/b.py" 1 "y=2" in
  let self1 := (receive_code_chunk (init None) first clock1).1 in
  let self2 := (receive_code_chunk self1 second clock2).1 in
  status_code (receive_code_chunk (init None) first clock1).2 = 200 ∧
  status_code (receive_code_chunk self1 second clock2).2 = 200 ∧
  total_records self2 = 2%nat ∧
  status_code (indexing_status self2 now) = 200 ∧
  reported (indexing_status self2 now) = Some 1%nat.
Proof.
  unfold init. cbv zeta.
  rewrite !receive_submit_object, !receive_submit_code, !indexing_status_count.
  rewrite (encodes_ascii_only "/a/b.py") by done.
  split_and!; [done..|by vm_compute|apply indexing_status_reported|by vm_compute].
Qed.

(** C3 (the code departs from it).  The claim: the same chunk submitted twice
    leaves two records for its file and doubles the reported count.  In the
    code the two records are there, in arrival order, and the count
    [len(self.chunk_storage)] is the same after the second submission as
    after the first: 1 on a fresh object. *)
Theorem duplicate_submission_keeps_count `{Pydantic} `{Encoding} storage p i c
    clock1 clock2 now :
  let self := {| auth_manager := None; chunk_storage := storage |} in
  let self1 := (receive_code_chunk self (submit p i c) clock1).1 in
  let self2 := (receive_code_chunk self1 (submit p i c) clock2).1 in
  let chunk := {| path := p; idx := i; content := c |} in
  log self2 p = log self p ++ [stored_chunk chunk clock1; stored_chunk chunk clock2] ∧
  reported (indexing_status self2 now) = reported (indexing_status self1 now) ∧
  reported (indexing_status (receive_code_chunk (init None) (submit p i c) clock1).1 now)
    = Some 1%nat.
Proof.
  unfold init. cbv zeta.
  rewrite !receive_submit_object, !indexing_status_count.
  unfold log, stored_chunk. simpl.
  rewrite !store_size, !store_insert. simpl.
  rewrite !lookup_insert_eq. simpl. rewrite lookup_empty.
  split_and!; [|done..]. by rewrite <- app_assoc.
Qed.

(** C4 (the code departs from it).  The claim: an accepted request appends
    exactly one record to the list of its file and raises the count by one.
    In the code the request is answered 200 (500 when the response cannot
    carry its path) and the record is appended, and the count
    [len(self.chunk_storage)] stays as it was whenever the file already has
    a list. *)
Theorem accepted_chunk_for_known_file_keeps_count `{Pydantic} `{Encoding}
    storage items p i c clock now :
  let self := {| auth_manager := None;
                 chunk_storage := <[p := items]> storage |} in
  let self' := (receive_code_chunk self (submit p i c) clock).1 in
  let chunk := {| path := p; idx := i; content := c |} in
  status_code (receive_code_chunk self (submit p i c) clock).2 =
    (if encodes p then 200 else 500) ∧
  log self' p = log self p ++ [stored_chunk chunk clock] ∧
  length (log self' p) = S (length (log self p)) ∧
  reported (indexing_status self' now) = reported (indexing_status self now).
Proof.
  cbv zeta. rewrite receive_submit_object, receive_submit_code.
  rewrite !indexing_status_count.
  split_and!.
  - done.
  - unfold log, stored_chunk. simpl. by rewrite store_insert, lookup_insert_eq.
  - unfold log. simpl. rewrite store_insert, !lookup_insert_eq. simpl.
    rewrite length_app. simpl. lia.
  - simpl. by rewrite store_size, lookup_insert_eq.
Qed.

(** ** Payloads that are not a [CodeChunk] *)

(** C2 (the code departs from it).  The claim: a body that is valid JSON and
    lacks a required field is answered 400.  In the code the constructor of
    [CodeChunk] raises, the clause for [json.JSONDecodeError] does not match,
    and the general clause answers 500; the object is left as it was.  Here
    the body lacks [content]. *)
Theorem missing_field_answers_500 `{Pydantic} `{Encoding} self auth clock :
  let chunk_data := JDict [("path", JStr "/a/b.py"); ("idx", JInt 0)] in
  let request := {| body := Loaded chunk_data; authorization := auth |} in
  receive_code_chunk self request clock =
  (self,
   {| response_content :=
        ErrorContent ("Processing error: " +:+ error_text chunk_data);
      status_code := 500 |}).
Proof.
  cbv zeta. unfold receive_code_chunk, receive_code_chunk_try, parse_chunk.
  simpl. unfold field. simpl.
  by rewrite str_validator_str, int_validator_int.
Qed.

(** ** Rejections *)

Lemma answered_200_not_rejected `{Pydantic} `{Encoding} self request clock :
  status_code (receive_code_chunk self request clock).2 = 200 →
  rejects self request = false.
Proof.
  intros H200. destruct (rejects self request) eqn:Hrej; [|done].
  by destruct (rejected_code self request clock Hrej) as [_ ?].
Qed.

(** C5.  A request turned down by payload validation or by authentication
    leaves the handler object as it was: no list is created, no list grows,
    and the count the status route reports is the same before and after. *)
Theorem rejected_request_leaves_storage `{Pydantic} `{Encoding} self request clock :
  rejects self request = true →
  status_code (receive_code_chunk self request clock).2 ≠ 200 ∧
  chunk_storage (receive_code_chunk self request clock).1 = chunk_storage self ∧
  (∀ p, log (receive_code_chunk self request clock).1 p = log self p) ∧
  total_records (receive_code_chunk self request clock).1 = total_records self ∧
  (∀ now, reported (indexing_status (receive_code_chunk self request clock).1 now)
          = reported (indexing_status self now)).
Proof.
  intros Hrej.
  destruct (rejected_code self request clock Hrej) as [Hself Hcode].
  rewrite Hself. by split_and!.
Qed.

Lemma rejected_request_leaves_storage_witness :
  let self := init (Some only_secret) in
  let request := {| body := chunk_body "/a/b.py" 0 "x=1";
                    authorization := Some "Bearer guess" |} in
  rejects self request = true ∧
  chunk_storage (receive_code_chunk self request clock0).1 = chunk_storage self.
Proof.
  cbv zeta. split; [reflexivity|].
  apply (rejected_request_leaves_storage (init (Some only_secret))
           {| body := chunk_body "/a/b.py" 0 "x=1";
              authorization := Some "Bearer guess" |} clock0).
  reflexivity.
Defined.

(** ** Authentication *)

(** C6.  With an authentication manager configured, a request that has
    passed the parsing step (its body gives a [CodeChunk]) and whose
    [Authorization] header is missing or does not start with [Bearer ], and
    one whose token the manager turns down, are answered 401 with an error
    body; the object is left as it was. *)
Theorem unauthenticated_chunk_answers_401 `{Pydantic} `{Encoding} self request clock
    validate_api_key chunk :
  auth_manager self = Some validate_api_key →
  parse_chunk request = Return chunk →
  (∀ token, presented_token request = Some token →
            validate_api_key token = false) →
  receive_code_chunk self request clock =
  (self,
   {| response_content :=
        ErrorContent (if presented_token request is Some _
                      then "Invalid API key"
                      else "Authorization header required");
      status_code := 401 |}).
Proof.
  intros Hmanager Hparse Htoken.
  unfold receive_code_chunk, receive_code_chunk_try. rewrite Hparse.
  unfold authenticate. rewrite Hmanager.
  unfold presented_token in *.
  destruct (authorization request) as [auth_header|]; [|done].
  destruct (startswith auth_header "Bearer "); [|done].
  by rewrite (Htoken _ eq_refl).
Qed.

Lemma unauthenticated_chunk_answers_401_witness :
  let self := init (Some only_secret) in
  let request := {| body := chunk_body "/a/b.py" 0 "x=1";
                    authorization := Some "Bearer guess" |} in
  receive_code_chunk self request clock0 =
  (self, {| response_content := ErrorContent "Invalid API key";
            status_code := 401 |}).
Proof.
  cbv zeta.
  apply (unauthenticated_chunk_answers_401 (init (Some only_secret))
           {| body := chunk_body "/a/b.py" 0 "x=1";
              authorization := Some "Bearer guess" |} clock0 only_secret
           {| path := "/a/b.py"; idx := 0; content := "x=1" |}).
  - reflexivity.
  - reflexivity.
  - intros token Htoken. vm_compute in Htoken. by simplify_eq.
Defined.

(** ** Language classification *)

Lemma language_of_cases ext :
  (language_of ext).1 =
  if decide (ext = "py") then "python"
  else if decide (ext = "ts" ∨ ext = "js") then "typescript/javascript"
       else "generic".
Proof.
  unfold language_of.
  destruct (String.eqb_spec ext "py") as [->|Hpy]; [done|].
  rewrite decide_False by done.
  destruct (String.eqb_spec ext "ts") as [->|Hts].
  { by rewrite decide_True by auto. }
  destruct (String.eqb_spec ext "js") as [->|Hjs].
  { by rewrite decide_True by auto. }
  by rewrite decide_False by (by intros [?|?]).
Qed.

(** C7.  The language of a result depends on the path alone.  The extension
    is the text after the last dot of the path, empty when the path has no
    dot; extension [py] gives "python", [ts] and [js] give
    "typescript/javascript", and everything else gives "generic".  So "a.py"
    is "python", "a.ts" and "a.js" are "typescript/javascript", and "a.txt"
    and "a" are "generic", the last with an empty extension. *)
Theorem language_is_function_of_path :
  (∀ self chunk clock,
     ∃ r, (_process_chunk self chunk clock).2 = Return r ∧
       extension_of (path chunk) = Return (file_extension r) ∧
       contains dot (file_extension r) = false ∧
       ((contains dot (path chunk) = false ∧ file_extension r = "") ∨
        (∃ pre, path chunk = pre +:+ "." +:+ file_extension r)) ∧
       language r =
         if decide (file_extension r = "py") then "python"
         else if decide (file_extension r = "ts" ∨ file_extension r = "js")
              then "typescript/javascript"
              else "generic") ∧
  (∀ self i c clock,
     let tag p := (λ r, (file_extension r, language r)) <$>
       (_process_chunk self {| path := p; idx := i; content := c |} clock).2 in
     tag "a.py" = Return ("py", "python") ∧
     tag "a.ts" = Return ("ts", "typescript/javascript") ∧
     tag "a.js" = Return ("js", "typescript/javascript") ∧
     tag "a.txt" = Return ("txt", "generic") ∧
     tag "a" = Return ("", "generic")).
Proof.
  split.
  - intros self chunk clock.
    destruct (process_chunk_returns self chunk clock)
      as (r & Hr & Hext & _ & _ & _ & _ & _ & Hlang & _).
    destruct (extension_of_spec (path chunk)) as (ext & Hext' & Hdot & Hshape).
    rewrite Hext in Hext'. injection Hext' as <-.
    exists r. split_and!; try done.
    rewrite Hlang. apply language_of_cases.
  - intros self i c clock. by vm_compute.
Qed.

(** ** Arrival order *)

Lemma receive_code_chunk_log_prefix `{Pydantic} `{Encoding} self request clock p :
  log self p `prefix_of` log (receive_code_chunk self request clock).1 p.
Proof.
  destruct (receive_code_chunk_cases self request clock)
    as [(_ & response & -> & _)|(_ & chunk & r & _ & _ & _ & ->)];
    cbn [fst]; [done|].
  rewrite process_chunk_log. case_decide; [|done].
  by apply prefix_app_r.
Qed.

Lemma serve_log_prefix `{Pydantic} `{Encoding} requests self p :
  log self p `prefix_of` log (serve self requests) p.
Proof.
  revert self. induction requests as [|[request clock] rest IH];
    intros self; simpl; [done|].
  etrans; [apply (receive_code_chunk_log_prefix self request clock)|apply IH].
Qed.

(** C8.  The list of a file only grows, at its end and in arrival order: a
    request either is turned down and leaves the object as it was, or has the
    record of its chunk appended to the list of its path, no other list
    touched, and is then answered 200 (500 when the response cannot carry the
    path), so that every request answered 200 has appended its record;
    whatever requests follow, the list a file had is a prefix of the list it
    has; and chunks of one file arriving with [idx] 2, 0, 1 are stored in the
    order 2, 0, 1. *)
Theorem chunk_log_is_append_only `{Pydantic} `{Encoding} :
  (∀ self request clock,
     (status_code (receive_code_chunk self request clock).2 ≠ 200 ∧
      (receive_code_chunk self request clock).1 = self) ∨
     (∃ chunk,
        parse_chunk request = Return chunk ∧
        status_code (receive_code_chunk self request clock).2 =
          (if encodes (path chunk) then 200 else 500) ∧
        chunk_storage (receive_code_chunk self request clock).1 =
          <[path chunk := log self (path chunk) ++ [stored_chunk chunk clock]]>
            (chunk_storage self))) ∧
  (∀ self requests p, log self p `prefix_of` log (serve self requests) p) ∧
  (∀ p c2 c0 c1 clock2 clock0 clock1,
     stored_idx <$>
       log (serve (init None)
              [(submit p 2 c2, clock2); (submit p 0 c0, clock0);
               (submit p 1 c1, clock1)]) p = [2; 0; 1]).
Proof.
  split_and!.
  - intros self request clock.
    destruct (receive_code_chunk_cases self request clock)
      as [(_ & response & -> & Hcode & _)
         |(_ & chunk & r & Hparse & _ & _ & ->)];
      cbn [fst snd].
    + left. split; [|done]. intros H200. rewrite H200 in Hcode.
      by destruct Hcode as [?|[?|?]].
    + right. exists chunk. rewrite processed_answer_code.
      split_and!; [done..|]. apply process_chunk_storage.
  - intros self requests p. apply serve_log_prefix.
  - intros p c2 c0 c1 clock2 clock0 clock1. unfold init.
    rewrite !serve_submit. simpl. unfold log. simpl.
    rewrite !store_insert. simpl.
    by rewrite !lookup_insert_eq, lookup_empty.
Qed.

(** ** Results *)

(** C9.  Without an authentication manager, the body
    [{"path": "/a/b.py", "idx": 0, "content": "x=1"}] is answered 200 with a
    result whose [language] is "python", whose [content_length] is 3 and
    whose [lines_count] is 1. *)
Theorem python_chunk_scenario `{Pydantic} `{Encoding} clock :
  let request :=
    {| body := Loaded (JDict [("path", JStr "/a/b.py"); ("idx", JInt 0);
                              ("content", JStr "x=1")]);
       authorization := None |} in
  ∃ result,
    (receive_code_chunk (init None) request clock).2 =
      {| response_content :=
           ChunkContent "ok" "Processed chunk 0 from /a/b.py" result;
         status_code := 200 |} ∧
    language result = "python" ∧
    content_length result = 3%nat ∧
    lines_count result = 1%nat.
Proof.
  cbv zeta. unfold init.
  destruct (receive_submit_answer ∅ "/a/b.py" 0 "x=1" clock) as (r & Hr & Heq).
  cbv zeta in Heq. unfold submit, chunk_body in Heq. rewrite Heq.
  cbn [snd]. unfold processed_answer. cbn [path].
  rewrite (encodes_ascii_only "/a/b.py") by done.
  vm_compute in Hr. injection Hr as <-.
  eexists. split; [reflexivity|]. done.
Qed.

(** C10.  A chunk with empty content gets [content_length] 0 and
    [lines_count] 1 in the result of its success response, which it gets
    whenever the response can carry its path: the count is the number of
    segments [split] gives, and that is at least 1 for every content. *)
Theorem empty_content_counts_one_line `{Pydantic} `{Encoding} :
  (∀ storage p i clock,
     let response :=
       (receive_code_chunk {| auth_manager := None; chunk_storage := storage |}
          (submit p i "") clock).2 in
     if encodes p
     then status_code response = 200 ∧
          ∃ result, result_of response = Some result ∧
            content_length result = 0%nat ∧ lines_count result = 1%nat
     else status_code response = 500 ∧ result_of response = None) ∧
  (∀ self chunk clock,
     ∃ result, (_process_chunk self chunk clock).2 = Return result ∧
       (1 ≤ lines_count result)%nat) ∧
  (∀ s, length (split newline s) ≠ 0%nat).
Proof.
  split_and!.
  - intros storage p i clock. cbv zeta.
    destruct (receive_submit_answer storage p i "" clock) as (r & Hr & ->).
    destruct (process_chunk_returns
      {| auth_manager := None; chunk_storage := storage |}
      {| path := p; idx := i; content := "" |} clock)
      as (r' & Hr' & _ & _ & _ & Hlen & Hlines & _).
    rewrite Hr in Hr'. injection Hr' as <-.
    cbn [snd]. unfold processed_answer. cbn [path].
    destruct (encodes p); [|done].
    split; [done|]. by exists r.
  - intros self chunk clock.
    destruct (process_chunk_returns self chunk clock)
      as (r & Hr & _ & _ & _ & _ & Hlines & _).
    exists r. split; [done|]. rewrite Hlines. apply split_length_pos.
  - intros s. pose proof (split_length_pos newline s). lia.
Qed.

(** ** Status codes of the chunk route *)

#[local] Set Warnings "-clear-no-such-hyp".

Lemma CodeChunk_init_raises `{Pydantic} chunk_data e :
  CodeChunk_init chunk_data = Raise e → e = Exception (error_text chunk_data).
Proof.
  unfold CodeChunk_init. intros Hraise.
  repeat case_match; by simplify_eq.
Qed.

Lemma parse_chunk_decode_error `{Pydantic} request :
  parse_chunk request = Raise JSONDecodeError ↔ body request = LoadsDecodeError.
Proof.
  unfold parse_chunk. destruct (body request) as [|msg|chunk_data]; simpl.
  - done.
  - split; intros; simplify_eq.
  - split; [|done]. intros Hraise.
    by apply CodeChunk_init_raises in Hraise.
Qed.

(** X1.  The chunk route answers 400 exactly when [json.loads] raises
    [JSONDecodeError]; 401 exactly when the chunk is built and authentication
    turns the request down; 200 exactly when the chunk is built,
    authentication lets it through and the response can carry the path; 500
    exactly when [json.loads] raises something else, the constructor of
    [CodeChunk] raises, or the chunk has been processed and its response
    cannot be built.  It answers nothing else. *)
Theorem chunk_route_status_codes `{Pydantic} `{Encoding} self request clock :
  let code := status_code (receive_code_chunk self request clock).2 in
  (code = 400 ↔ body request = LoadsDecodeError) ∧
  (code = 500 ↔
     (∃ msg, parse_chunk request = Raise (Exception msg)) ∨
     (∃ chunk, parse_chunk request = Return chunk ∧
        authenticate self request = None ∧ encodes (path chunk) = false)) ∧
  (code = 401 ↔ (∃ chunk, parse_chunk request = Return chunk) ∧
                is_Some (authenticate self request)) ∧
  (code = 200 ↔
     ∃ chunk, parse_chunk request = Return chunk ∧
       authenticate self request = None ∧ encodes (path chunk) = true) ∧
  (code = 200 ∨ code = 400 ∨ code = 401 ∨ code = 500).
Proof.
  cbv zeta. rewrite <- parse_chunk_decode_error.
  unfold receive_code_chunk, receive_code_chunk_try.
  destruct (parse_chunk request) as [chunk|[|msg]] eqn:Hparse.
  - destruct (authenticate self request) as [rejection|] eqn:Hauth.
    + destruct (authenticate_rejection _ _ _ Hauth) as [H401 _].
      cbn [snd respond]. rewrite H401. split_and!; naive_solver.
    + destruct (process_chunk_returns self chunk clock) as (r & Hr & _).
      rewrite (surjective_pairing (_process_chunk self chunk clock)), Hr.
      cbn [snd mbind outcome_bind].
      rewrite (respond_json_response _ _ _ _ Hr), processed_answer_code.
      unfold processed_code.
      destruct (encodes (path chunk)) eqn:Hp; split_and!; try naive_solver.
      * split; [done|].
        intros [[msg ?]|(chunk' & [= <-] & _ & Hc)]; [done|congruence].
      * split; [done|]. intros (chunk' & [= <-] & _ & Hc). congruence.
  - simpl. split_and!; naive_solver.
  - simpl. split_and!; naive_solver.
Qed.

(** A path with a lone surrogate, in the alphabet [last_is_surrogate]: the
    chunk is stored, line 80 raises, and the request is answered 500 after
    three info calls and one error call. *)
Lemma lone_surrogate_path_is_stored_then_answered_500 :
  let p := String "255"%char ".py" in
  let request := submit p 0 "x=1" in
  status_code (receive_code_chunk (init None) request clock0).2 = 500 ∧
  log (receive_code_chunk (init None) request clock0).1 p =
    [{| stored_idx := 0; stored_content := "x=1";
        stored_timestamp := now_stored clock0 |}] ∧
  (call_level <$> receive_code_chunk_calls (init None) request clock0) =
    [INFO; INFO; INFO; ERROR].
Proof. by vm_compute. Qed.

(** ** More on authentication *)

(** X2.  Without an authentication manager the [Authorization] header is
    never looked at: two requests with the same body get the same response
    and leave the same object, whatever their headers. *)
Theorem header_ignored_without_manager `{Pydantic} `{Encoding} self request request' clock :
  auth_manager self = None →
  body request = body request' →
  receive_code_chunk self request clock = receive_code_chunk self request' clock.
Proof.
  intros Hmanager Hbody.
  unfold receive_code_chunk, receive_code_chunk_try, parse_chunk, authenticate.
  by rewrite Hmanager, Hbody.
Qed.

Lemma header_ignored_without_manager_witness :
  receive_code_chunk (init None)
    {| body := chunk_body "/a/b.py" 0 "x=1";
       authorization := Some "Basic dXNlcjpwYXNz" |} clock0 =
  receive_code_chunk (init None) (submit "/a/b.py" 0 "x=1") clock0.
Proof.
  apply (header_ignored_without_manager (init None)
           {| body := chunk_body "/a/b.py" 0 "x=1";
              authorization := Some "Basic dXNlcjpwYXNz" |}
           (submit "/a/b.py" 0 "x=1") clock0); reflexivity.
Defined.

Lemma startswith_bearer token : startswith ("Bearer " +:+ token) "Bearer " = true.
Proof. unfold startswith. by destruct token. Qed.

Lemma slice_from_bearer token : slice_from 7 ("Bearer " +:+ token) = token.
Proof. done. Qed.

(** X3.  With an authentication manager and a body that gives a chunk, the
    header [Bearer <token>] makes the manager decide on exactly [<token>]
    (the empty token included): when the manager accepts it the chunk is
    stored and the request answered 200 (500 when the response cannot carry
    the path); when it does not the request is answered 401 with
    "Invalid API key" and nothing is stored. *)
Theorem bearer_token_decides `{Pydantic} `{Encoding} self request clock
    validate_api_key chunk token :
  auth_manager self = Some validate_api_key →
  parse_chunk request = Return chunk →
  authorization request = Some ("Bearer " +:+ token) →
  if validate_api_key token
  then status_code (receive_code_chunk self request clock).2 =
         (if encodes (path chunk) then 200 else 500) ∧
       log (receive_code_chunk self request clock).1 (path chunk) =
         log self (path chunk) ++ [stored_chunk chunk clock]
  else receive_code_chunk self request clock =
       (self, {| response_content := ErrorContent "Invalid API key";
                 status_code := 401 |}).
Proof.
  intros Hmanager Hparse Hheader.
  unfold receive_code_chunk, receive_code_chunk_try. rewrite Hparse.
  unfold authenticate. rewrite Hmanager, Hheader.
  rewrite startswith_bearer, slice_from_bearer.
  destruct (validate_api_key token); [|done].
  destruct (process_chunk_returns self chunk clock) as (r & Hr & _).
  rewrite (surjective_pairing (_process_chunk self chunk clock)), Hr.
  cbn [fst snd mbind outcome_bind].
  rewrite (respond_json_response _ _ _ _ Hr), processed_answer_code.
  split; [done|].
  rewrite process_chunk_log. by rewrite decide_True.
Qed.

Lemma bearer_token_decides_witness :
  let self := init (Some only_secret) in
  let request := {| body := chunk_body "/a/b.py" 0 "x=1";
                    authorization := Some "Bearer secret" |} in
  status_code (receive_code_chunk self request clock0).2 = 200 ∧
  log (receive_code_chunk self request clock0).1 "/a/b.py" =
    [{| stored_idx := 0; stored_content := "x=1";
        stored_timestamp := now_stored clock0 |}].
Proof.
  cbv zeta.
  exact (bearer_token_decides (init (Some only_secret))
           {| body := chunk_body "/a/b.py" 0 "x=1";
              authorization := Some "Bearer secret" |} clock0 only_secret
           {| path := "/a/b.py"; idx := 0; content := "x=1" |} "secret"
           eq_refl eq_refl eq_refl).
Defined.

(** X4.  No field of a chunk is constrained beyond its type: without an
    authentication manager every well-formed body is processed, whatever its
    path (empty included), its [idx] (negative included) and its content
    (empty included).  Its record is stored, and it is answered 200 with a
    result that echoes the path, the [idx], the length of the content and
    the second clock read, or, when the path cannot be encoded, 500 with the
    record stored all the same. *)
Theorem well_formed_body_is_processed `{Pydantic} `{Encoding} storage p i c clock :
  let self := {| auth_manager := None; chunk_storage := storage |} in
  let chunk := {| path := p; idx := i; content := c |} in
  ∃ result,
    file_path result = p ∧ chunk_index result = i ∧
    content_length result = String.length c ∧
    processed_at result = now_processed clock ∧
    log (receive_code_chunk self (submit p i c) clock).1 p =
      log self p ++ [stored_chunk chunk clock] ∧
    (receive_code_chunk self (submit p i c) clock).2 =
      if encodes p
      then {| response_content :=
                ChunkContent "ok"
                  ("Processed chunk " +:+ pretty i +:+ " from " +:+ p) result;
              status_code := 200 |}
      else {| response_content :=
                ErrorContent
                  ("Processing error: " +:+
                   UnicodeEncodeError_text
                     (ChunkContent "ok"
                        ("Processed chunk " +:+ pretty i +:+ " from " +:+ p)
                        result));
              status_code := 500 |}.
Proof.
  cbv zeta.
  destruct (receive_submit_answer storage p i c clock) as (r & Hr & ->).
  destruct (process_chunk_returns
    {| auth_manager := None; chunk_storage := storage |}
    {| path := p; idx := i; content := c |} clock)
    as (r' & Hr' & _ & Hpath & Hidx & Hlen & _ & Hat & _).
  rewrite Hr in Hr'. injection Hr' as <-.
  exists r. cbn [fst snd]. split_and!; [done..| |done].
  rewrite process_chunk_log. by rewrite decide_True.
Qed.

(** ** Requests in sequence *)

Lemma records_step_comm (z1 z2 : list StoredChunk) (y : nat) :
  (length z1 + (length z2 + y) = length z2 + (length z1 + y))%nat.
Proof. lia. Qed.

Lemma total_records_process self chunk clock :
  total_records (_process_chunk self chunk clock).1 = S (total_records self).
Proof.
  unfold total_records. rewrite process_chunk_storage. unfold log.
  destruct (chunk_storage self !! path chunk) as [items|] eqn:Hk; simpl.
  - rewrite <- insert_delete_eq.
    rewrite map_fold_insert_L;
      [|intros; apply records_step_comm|apply lookup_delete_eq].
    rewrite (map_fold_delete_L _ _ _ _ (chunk_storage self)
               (λ _ _ z1 z2 y _ _ _, records_step_comm z1 z2 y) Hk).
    rewrite length_app. simpl. lia.
  - rewrite map_fold_insert_L; [done|intros; apply records_step_comm|done].
Qed.

Lemma process_chunk_nonempty self chunk clock :
  map_Forall (λ _ items, items ≠ []) (chunk_storage self) →
  map_Forall (λ _ items, items ≠ [])
    (chunk_storage (_process_chunk self chunk clock).1).
Proof.
  intros Hinv. rewrite process_chunk_storage.
  apply map_Forall_insert_2; [|done].
  by destruct (log self (path chunk)).
Qed.

Lemma size_le_records (m : gmap string (list StoredChunk)) :
  map_Forall (λ _ items, items ≠ []) m →
  (size m ≤ map_fold (λ _ items n, length items + n) 0 m)%nat ∧
  (size m = 0%nat ↔ map_fold (λ _ items n, length items + n)%nat 0%nat m = 0%nat).
Proof.
  induction m as [|p items m Hp IH] using map_ind; [done|].
  intros Hinv. apply map_Forall_insert in Hinv as [Hitems Hm]; [|done].
  rewrite map_size_insert_None by done.
  rewrite map_fold_insert_L; [|intros; apply records_step_comm|done].
  destruct (IH Hm) as [Hle _]. destruct items; [done|]. simpl. split; lia.
Qed.

Section Sequences.

Context `{Pydantic} `{Encoding}.

(** One request of a sequence: either it is turned down and changes nothing,
    or its chunk is processed and heads the processed ones. *)
Lemma serve_step self request clock rest :
  (rejects self request = true ∧
   serve self ((request, clock) :: rest) = serve self rest ∧
   processed self ((request, clock) :: rest) = processed self rest) ∨
  (∃ chunk,
     parse_chunk request = Return chunk ∧
     authenticate self request = None ∧
     serve self ((request, clock) :: rest) =
       serve (_process_chunk self chunk clock).1 rest ∧
     processed self ((request, clock) :: rest) =
       (chunk, clock) :: processed (_process_chunk self chunk clock).1 rest).
Proof.
  simpl.
  destruct (receive_code_chunk_cases self request clock)
    as [(Hrej & response & -> & _)
       |(Hacc & chunk & r & Hparse & Hauth & _ & ->)];
    cbn [fst snd].
  - left. rewrite Hrej. split_and!; [done..|]. by destruct (parse_chunk request).
  - right. exists chunk. rewrite Hparse, Hacc. by split_and!.
Qed.

Lemma serve_log self requests p :
  log (serve self requests) p =
  log self p ++
  ((λ cc, stored_chunk cc.1 cc.2) <$>
     filter (λ cc, path cc.1 = p) (processed self requests)).
Proof.
  revert self. induction requests as [|[request clock] rest IH]; intros self.
  { simpl. by rewrite app_nil_r. }
  destruct (serve_step self request clock rest)
    as [(_ & -> & ->)|(chunk & _ & _ & -> & ->)]; [apply IH|].
  rewrite IH, process_chunk_log, filter_cons. simpl.
  case_decide; [|done]. by rewrite <- app_assoc.
Qed.

Lemma serve_total_records self requests :
  total_records (serve self requests) =
  (total_records self + length (processed self requests))%nat.
Proof.
  revert self. induction requests as [|[request clock] rest IH]; intros self.
  { simpl. lia. }
  destruct (serve_step self request clock rest)
    as [(_ & -> & ->)|(chunk & _ & _ & -> & ->)]; [apply IH|].
  rewrite IH, total_records_process. simpl. lia.
Qed.

Lemma serve_dom self requests :
  dom (chunk_storage (serve self requests)) =
  dom (chunk_storage self) ∪
  list_to_set ((λ cc, path cc.1) <$> processed self requests).
Proof.
  revert self. induction requests as [|[request clock] rest IH]; intros self.
  { simpl. set_solver. }
  destruct (serve_step self request clock rest)
    as [(_ & -> & ->)|(chunk & _ & _ & -> & ->)]; [apply IH|].
  rewrite IH, process_chunk_storage, dom_insert_L. simpl. set_solver.
Qed.

Lemma serve_nonempty self requests :
  map_Forall (λ _ items, items ≠ []) (chunk_storage self) →
  map_Forall (λ _ items, items ≠ []) (chunk_storage (serve self requests)).
Proof.
  revert self. induction requests as [|[request clock] rest IH]; intros self.
  { done. }
  intros Hinv.
  destruct (serve_step self request clock rest)
    as [(_ & -> & _)|(chunk & _ & _ & -> & _)]; [by apply IH|].
  by apply IH, process_chunk_nonempty.
Qed.

Lemma serve_auth_manager self requests :
  auth_manager (serve self requests) = auth_manager self.
Proof.
  revert self. induction requests as [|[request clock] rest IH]; intros self.
  { done. }
  destruct (serve_step self request clock rest)
    as [(_ & -> & _)|(chunk & _ & _ & -> & _)]; [apply IH|].
  by rewrite IH.
Qed.

(** A request answered 200, or answered 500 for its response, is a processed
    one; the others are not. *)
Lemma processed_single self request clock :
  processed self [(request, clock)] =
  match parse_chunk request with
  | Return chunk =>
      if authenticate self request is None then [(chunk, clock)] else []
  | Raise _ => []
  end.
Proof.
  simpl. unfold rejects. rewrite app_nil_r.
  destruct (parse_chunk request) as [chunk|e]; [|done].
  destruct (authenticate self request) as [rejection|] eqn:Hauth.
  - by rewrite bool_decide_eq_true_2.
  - rewrite bool_decide_eq_false_2; [done|]. by intros [??].
Qed.

(** With a manager, a processed chunk came with a token the manager
    accepted. *)
Lemma processed_authenticated validate_api_key requests self chunk clock :
  auth_manager self = Some validate_api_key →
  (chunk, clock) ∈ processed self requests →
  ∃ request token,
    (request, clock) ∈ requests ∧
    parse_chunk request = Return chunk ∧
    presented_token request = Some token ∧
    validate_api_key token = true.
Proof.
  revert self. induction requests as [|[request clock'] rest IH];
    intros self Hmanager Hin.
  { by apply elem_of_nil in Hin. }
  destruct (serve_step self request clock' rest)
    as [(_ & _ & Hacc)|(chunk' & Hparse & Hauth & _ & Hacc)];
    rewrite Hacc in Hin.
  - destruct (IH self Hmanager Hin) as (rq & token & ? & ? & ? & ?).
    exists rq, token. split_and!; [by apply elem_of_cons; right|done..].
  - apply elem_of_cons in Hin as [Heq|Hin].
    + simplify_eq.
      unfold authenticate in Hauth. rewrite Hmanager in Hauth.
      destruct (authorization request) as [auth_header|] eqn:Hheader; [|done].
      destruct (startswith auth_header "Bearer ") eqn:Hscheme; [|done].
      destruct (validate_api_key (slice_from 7 auth_header)) eqn:Hv; [|done].
      exists request, (slice_from 7 auth_header).
      split_and!; [apply elem_of_cons; by left|done| |done].
      unfold presented_token. by rewrite Hheader, Hscheme.
    + destruct (IH (_process_chunk self chunk' clock').1 Hmanager Hin)
        as (rq & token & ? & ? & ? & ?).
      exists rq, token. split_and!; [by apply elem_of_cons; right|done..].
Qed.

End Sequences.

(** X5.  After any sequence of requests the list stored for a path is the
    list it had, followed by the records of the chunks for that path that
    reached [_process_chunk], in their arrival order: those of the requests
    whose body gives a chunk and that authentication lets through, which are
    answered 200, or 500 when the response cannot be built.  Requests turned
    down contribute nothing. *)
Theorem log_is_processed_chunks_in_order `{Pydantic} `{Encoding} :
  (∀ self requests p,
     log (serve self requests) p =
     log self p ++
     ((λ cc, stored_chunk cc.1 cc.2) <$>
        filter (λ cc, path cc.1 = p) (processed self requests))) ∧
  (∀ self request clock,
     processed self [(request, clock)] =
     match parse_chunk request with
     | Return chunk =>
         if authenticate self request is None then [(chunk, clock)] else []
     | Raise _ => []
     end) ∧
  (∀ self request clock,
     match processed self [(request, clock)] with
     | [] => status_code (receive_code_chunk self request clock).2 ≠ 200
     | (chunk, _) :: _ =>
         status_code (receive_code_chunk self request clock).2 =
           if encodes (path chunk) then 200 else 500
     end).
Proof.
  split_and!; [apply serve_log|apply processed_single|].
  intros self request clock. rewrite processed_single.
  destruct (receive_code_chunk_cases self request clock)
    as [(Hrej & response & -> & Hcode & _)
       |(Hacc & chunk & r & Hparse & Hauth & _ & ->)];
    cbn [snd].
  - assert (status_code response ≠ 200) as Hne.
    { intros H200. rewrite H200 in Hcode. by destruct Hcode as [?|[?|?]]. }
    unfold rejects in Hrej.
    destruct (parse_chunk request) as [chunk|e]; [|done].
    destruct (authenticate self request) as [rejection|]; [done|].
    apply bool_decide_eq_true in Hrej. by destruct Hrej.
  - rewrite Hparse, Hauth. by rewrite processed_answer_code.
Qed.

(** X6.  The number of records stored over all files grows by one for each
    request whose chunk reaches [_process_chunk] and by nothing for the
    others: on an object made by [init] it is the number of those
    requests. *)
Theorem records_count_processed_requests `{Pydantic} `{Encoding} :
  (∀ self requests,
     total_records (serve self requests) =
     (total_records self + length (processed self requests))%nat) ∧
  (∀ am requests,
     total_records (serve (init am) requests) =
     length (processed (init am) requests)).
Proof.
  split; [apply serve_total_records|].
  intros am requests. by rewrite serve_total_records.
Qed.

(** X7.  The keys of [chunk_storage] are the keys it had and the paths of
    the chunks that reached [_process_chunk]; so what the status route
    reports on an object made by [init] is the number of distinct paths
    among those chunks. *)
Theorem storage_keys_are_processed_paths `{Pydantic} `{Encoding} :
  (∀ self requests,
     dom (chunk_storage (serve self requests)) =
     dom (chunk_storage self) ∪
     list_to_set ((λ cc, path cc.1) <$> processed self requests)) ∧
  (∀ am requests now,
     reported (indexing_status (serve (init am) requests) now) =
     Some (size (list_to_set (C := gset string)
                   ((λ cc, path cc.1) <$> processed (init am) requests)))).
Proof.
  split; [apply serve_dom|].
  intros am requests now. rewrite indexing_status_count.
  rewrite <- size_dom, serve_dom. simpl.
  by rewrite dom_empty_L, (left_id_L ∅ (∪)).
Qed.

(** X8.  No key of [chunk_storage] ever holds an empty list: a list is
    created only together with its first record. *)
Theorem stored_lists_are_never_empty `{Pydantic} `{Encoding} am requests :
  map_Forall (λ _ items, items ≠ [])
    (chunk_storage (serve (init am) requests)).
Proof. apply serve_nonempty, map_Forall_empty. Qed.

(** X9.  What the status route reports never exceeds the number of records
    stored, and it is 0 exactly when nothing is stored. *)
Theorem reported_count_is_at_most_records `{Pydantic} `{Encoding} am requests now :
  ∃ n, reported (indexing_status (serve (init am) requests) now) = Some n ∧
    (n ≤ total_records (serve (init am) requests))%nat ∧
    (n = 0%nat ↔ total_records (serve (init am) requests) = 0%nat).
Proof.
  eexists. split; [apply indexing_status_count|]. unfold total_records.
  apply size_le_records, serve_nonempty, map_Forall_empty.
Qed.

(** X10.  On an object made with an authentication manager, every record
    stored comes from a request of the sequence whose body gave the chunk of
    that record and whose [Authorization] header was [Bearer <token>] with a
    token the manager accepted. *)
Theorem stored_chunks_were_authenticated `{Pydantic} `{Encoding}
    validate_api_key requests p record :
  record ∈ log (serve (init (Some validate_api_key)) requests) p →
  ∃ request clock chunk token,
    (request, clock) ∈ requests ∧
    parse_chunk request = Return chunk ∧
    path chunk = p ∧
    record = stored_chunk chunk clock ∧
    presented_token request = Some token ∧
    validate_api_key token = true.
Proof.
  rewrite serve_log. unfold log at 1, init. simpl. rewrite lookup_empty. simpl.
  intros ([chunk clock] & -> & [Hpath Hin]%list_elem_of_filter)%list_elem_of_fmap.
  destruct (processed_authenticated validate_api_key requests
              {| auth_manager := Some validate_api_key; chunk_storage := ∅ |}
              chunk clock eq_refl Hin)
    as (request & token & ? & ? & ? & ?).
  by exists request, clock, chunk, token.
Qed.

Lemma stored_chunks_were_authenticated_witness :
  let request := {| body := chunk_body "/a/b.py" 0 "x=1";
                    authorization := Some "Bearer secret" |} in
  let chunk := {| path := "/a/b.py"; idx := 0; content := "x=1" |} in
  ∃ request' clock chunk' token,
    (request', clock) ∈ [(submit "/c.py" 1 "y", clock0); (request, clock0)] ∧
    parse_chunk request' = Return chunk' ∧
    path chunk' = "/a/b.py" ∧
    stored_chunk chunk clock0 = stored_chunk chunk' clock ∧
    presented_token request' = Some token ∧
    only_secret token = true.
Proof.
  cbv zeta.
  apply (stored_chunks_were_authenticated only_secret
           [(submit "/c.py" 1 "y", clock0);
            ({| body := chunk_body "/a/b.py" 0 "x=1";
                authorization := Some "Bearer secret" |}, clock0)]
           "/a/b.py"
           (stored_chunk {| path := "/a/b.py"; idx := 0; content := "x=1" |}
              clock0)).
  vm_compute. apply list_elem_of_here.
Defined.

(** ** More on results *)

Lemma split_length_count sep s :
  length (split sep s) = S (count_char sep s).
Proof.
  induction s as [|a s IH]; simpl; [done|].
  destruct (Ascii.eqb a sep); simpl; [by rewrite IH|].
  pose proof (split_nonempty sep s) as Hne.
  destruct (split sep s); [done|]. simpl in *. lia.
Qed.

Lemma count_char_le_length c s : (count_char c s ≤ String.length s)%nat.
Proof.
  induction s as [|a s IH]; simpl; [done|].
  destruct (Ascii.eqb a c); lia.
Qed.

(** X11.  [lines_count] is one more than the number of newline characters of
    the content, so a trailing newline counts as one more line; it is at
    least 1 and at most [content_length + 1]. *)
Theorem lines_count_is_newlines_plus_one self chunk clock :
  ∃ result, (_process_chunk self chunk clock).2 = Return result ∧
    lines_count result = S (count_char newline (content chunk)) ∧
    (1 ≤ lines_count result ≤ S (content_length result))%nat.
Proof.
  destruct (process_chunk_returns self chunk clock)
    as (r & Hr & _ & _ & _ & Hlen & Hlines & _).
  exists r. rewrite Hlines, Hlen, split_length_count.
  pose proof (count_char_le_length newline (content chunk)).
  split_and!; [done..|lia|lia].
Qed.

Lemma contains_app_sep sep pre ext :
  contains sep (pre +:+ String sep ext) = true.
Proof.
  induction pre as [|a pre IH]; simpl.
  - by rewrite Ascii.eqb_refl.
  - by destruct (Ascii.eqb a sep).
Qed.

Lemma extension_of_suffix pre ext :
  contains dot ext = false →
  extension_of (pre +:+ "." +:+ ext) = Return ext.
Proof.
  intros Hext. unfold extension_of.
  change (pre +:+ "." +:+ ext) with (pre +:+ String dot ext).
  rewrite contains_app_sep. unfold last_item.
  by rewrite last_split_suffix.
Qed.

Lemma extension_of_is ext p :
  contains dot ext = false → ext ≠ "" →
  extension_of p = Return ext ↔ ∃ pre, p = pre +:+ "." +:+ ext.
Proof.
  intros Hdot Hne. split.
  - intros Hp. destruct (extension_of_spec p) as (ext' & Hext' & _ & Hshape).
    rewrite Hp in Hext'. injection Hext' as <-.
    by destruct Hshape as [[_ ?]|?].
  - intros [pre ->]. by apply extension_of_suffix.
Qed.

(** X12.  A chunk is tagged "python" exactly when its path ends in ".py" and
    "typescript/javascript" exactly when it ends in ".ts" or ".js"; every
    other path is tagged "generic".  The comparison is with the whole path
    and case-sensitive. *)
Theorem language_by_path_suffix self chunk clock :
  ∃ result, (_process_chunk self chunk clock).2 = Return result ∧
    (language result = "python" ↔ ∃ pre, path chunk = pre +:+ ".py") ∧
    (language result = "typescript/javascript" ↔
       (∃ pre, path chunk = pre +:+ ".ts") ∨
       (∃ pre, path chunk = pre +:+ ".js")) ∧
    (language result = "generic" ↔
       ¬ ((∃ pre, path chunk = pre +:+ ".py") ∨
          (∃ pre, path chunk = pre +:+ ".ts") ∨
          (∃ pre, path chunk = pre +:+ ".js"))).
Proof.
  destruct (process_chunk_returns self chunk clock)
    as (r & Hr & Hext & _ & _ & _ & _ & _ & Hlang & _).
  exists r. split; [done|].
  rewrite Hlang, language_of_cases.
  pose proof (extension_of_is "py" (path chunk) eq_refl) as Hpy.
  pose proof (extension_of_is "ts" (path chunk) eq_refl) as Hts.
  pose proof (extension_of_is "js" (path chunk) eq_refl) as Hjs.
  rewrite Hext in Hpy, Hts, Hjs.
  change (?pre +:+ "." +:+ "py") with (pre +:+ ".py") in Hpy.
  assert (∀ a b : string, Return (A := string) a = Return b ↔ a = b) as Hinj.
  { intros a b. split; [by intros [= ->]|by intros ->]. }
  rewrite Hinj in Hpy, Hts, Hjs.
  rewrite <- Hpy, <- Hts, <- Hjs by done.
  clear. generalize (file_extension r). intros ext.
  destruct (decide (ext = "py")) as [->|Hpy].
  { split_and!; split; try done; intros Hn; [by destruct Hn|].
    exfalso. apply Hn. by left. }
  destruct (decide (ext = "ts" ∨ ext = "js")) as [Htsjs|Hneither].
  { split_and!; split; try done.
    intros Hn. exfalso. apply Hn. by right. }
  split_and!; split; try done.
  - intros _ [?|?]; [done|]. by apply Hneither.
Qed.

(** ** Payload shapes *)

(** X13.  A body that is JSON but not an object, or an object without one of
    the members [path], [idx], [content], never reaches authentication or
    storage: it is answered 500 with "Processing error: " followed by the
    text of the exception, and the object is left as it was. *)
Theorem misshapen_payload_answers_500 `{Pydantic} `{Encoding} self request clock chunk_data :
  body request = Loaded chunk_data →
  match chunk_data with
  | JDict items =>
      ∃ name, name ∈ ["path"; "idx"; "content"] ∧ dict_get name items = None
  | _ => True
  end →
  receive_code_chunk self request clock =
  (self,
   {| response_content :=
        ErrorContent ("Processing error: " +:+ error_text chunk_data);
      status_code := 500 |}).
Proof.
  intros Hbody Hshape.
  assert (CodeChunk_init chunk_data = Raise (Exception (error_text chunk_data)))
    as Hinit.
  { destruct chunk_data as [| | | | | |items]; try done.
    destruct Hshape as (name & Hname & Hmissing).
    unfold CodeChunk_init, field.
    repeat (apply elem_of_cons in Hname as [->|Hname]);
      [..|by apply elem_of_nil in Hname];
      rewrite Hmissing; simpl; by repeat case_match. }
  unfold receive_code_chunk, receive_code_chunk_try, parse_chunk.
  rewrite Hbody. simpl. by rewrite Hinit.
Qed.

Lemma misshapen_payload_answers_500_witness :
  let chunk_data := JList [JStr "/a/b.py"; JInt 0; JStr "x=1"] in
  receive_code_chunk (init None)
    {| body := Loaded chunk_data; authorization := None |} clock0 =
  (init None,
   {| response_content :=
        ErrorContent ("Processing error: " +:+ error_text chunk_data);
      status_code := 500 |}).
Proof.
  cbv zeta.
  apply (misshapen_payload_answers_500 (init None)
           {| body := Loaded (JList [JStr "/a/b.py"; JInt 0; JStr "x=1"]);
              authorization := None |} clock0
           (JList [JStr "/a/b.py"; JInt 0; JStr "x=1"])).
  - reflexivity.
  - exact I.
Defined.

(** ** Calls to the logger *)

Lemma receive_code_chunk_calls_cases `{Pydantic} `{Encoding} self request clock :
  let code := status_code (receive_code_chunk self request clock).2 in
  let calls := receive_code_chunk_calls self request clock in
  (code = 400 ∧ calls = [logger_error "Invalid JSON in request body"]) ∨
  (code = 500 ∧
   ∃ msg, parse_chunk request = Raise (Exception msg) ∧
     calls = [logger_error ("Error processing chunk: " +:+ msg)]) ∨
  (∃ chunk,
     parse_chunk request = Return chunk ∧
     let received :=
       [logger_info ("Received chunk " +:+ pretty (idx chunk) +:+ " from " +:+
                     path chunk);
        logger_info ("Content length: " +:+
                     pretty (String.length (content chunk)) +:+ " characters")]
     in
     let processed :=
       logger_info ("Successfully processed chunk " +:+
                    pretty (idx chunk) +:+ " from " +:+ path chunk) in
     (code = 401 ∧ calls = received) ∨
     (code = 200 ∧ calls = received ++ [processed]) ∨
     (code = 500 ∧
      ∃ msg, calls = received ++
        [processed; logger_error ("Error processing chunk: " +:+ msg)])).
Proof.
  cbv zeta. unfold receive_code_chunk_calls, _process_chunk_calls.
  unfold receive_code_chunk, receive_code_chunk_try.
  destruct (parse_chunk request) as [chunk|[|msg]] eqn:Hparse.
  - right. right. exists chunk. split; [done|].
    destruct (authenticate self request) as [rejection|] eqn:Hauth.
    + left. destruct (authenticate_rejection _ _ _ Hauth) as [H401 _].
      by rewrite app_nil_r.
    + right. destruct (process_chunk_returns self chunk clock) as (r & Hr & _).
      rewrite (surjective_pairing (_process_chunk self chunk clock)), Hr.
      cbn [fst snd mbind outcome_bind].
      change (ChunkContent "ok" _ r) with (success_content chunk r).
      unfold json_response. rewrite (process_chunk_renders _ _ _ _ Hr).
      destruct (encodes (path chunk)).
      * left. by rewrite app_nil_r.
      * right. split; [done|]. by eexists.
  - by left.
  - right. left. split; [done|]. by exists msg.
Qed.

(** X14.  What the chunk route logs is decided by how far the request gets:
    one error call "Invalid JSON in request body" with 400; one error call
    "Error processing chunk: ..." with a 500 for a body that gives no chunk;
    with 401 the two info calls that give the [idx], the path and the
    content length of the chunk, made before authentication is looked at;
    with 200 those two and the info call "Successfully processed chunk ...";
    and with a 500 for a response that cannot be built those three info
    calls followed by the error call "Error processing chunk: ...". *)
Theorem logged_calls_by_status `{Pydantic} `{Encoding} self request clock :
  let code := status_code (receive_code_chunk self request clock).2 in
  let calls := receive_code_chunk_calls self request clock in
  (code = 400 ∧ calls = [logger_error "Invalid JSON in request body"]) ∨
  (code = 500 ∧
   ∃ msg, parse_chunk request = Raise (Exception msg) ∧
     calls = [logger_error ("Error processing chunk: " +:+ msg)]) ∨
  (∃ chunk,
     parse_chunk request = Return chunk ∧
     let received :=
       [logger_info ("Received chunk " +:+ pretty (idx chunk) +:+ " from " +:+
                     path chunk);
        logger_info ("Content length: " +:+
                     pretty (String.length (content chunk)) +:+ " characters")]
     in
     let processed :=
       logger_info ("Successfully processed chunk " +:+
                    pretty (idx chunk) +:+ " from " +:+ path chunk) in
     (code = 401 ∧ calls = received) ∨
     (code = 200 ∧ calls = received ++ [processed]) ∨
     (code = 500 ∧
      ∃ msg, calls = received ++
        [processed; logger_error ("Error processing chunk: " +:+ msg)])).
Proof. apply receive_code_chunk_calls_cases. Qed.

(** X15.  The chunk route makes an error call exactly when it answers 400 or
    500; a request turned down by authentication is logged at info level
    only. *)
Theorem error_logged_iff_400_or_500 `{Pydantic} `{Encoding} self request clock :
  Exists (λ call, call_level call = ERROR)
    (receive_code_chunk_calls self request clock) ↔
  status_code (receive_code_chunk self request clock).2 = 400 ∨
  status_code (receive_code_chunk self request clock).2 = 500.
Proof.
  destruct (receive_code_chunk_calls_cases self request clock)
    as [[-> ->]|[[-> (msg & _ & ->)]
       |(chunk & _ & [[-> ->]|[[-> ->]|[-> [msg ->]]]])]].
  - split; [by left|]. intros _. by apply Exists_cons_hd.
  - split; [by right|]. intros _. by apply Exists_cons_hd.
  - split; [|by intros [?|?]].
    intros Hex. by repeat (apply Exists_cons in Hex as [?|Hex]);
      [..|apply Exists_nil in Hex].
  - split; [|by intros [?|?]].
    intros Hex. simpl in Hex.
    by repeat (apply Exists_cons in Hex as [?|Hex]);
      [..|apply Exists_nil in Hex].
  - split; [by right|]. intros _. simpl.
    do 3 apply Exists_cons_tl. by apply Exists_cons_hd.
Qed.

(** ** Registration *)

(** X16.  [add_vscode_integration] returns an object with the manager it was
    given and nothing stored, registers the chunk route for POST and the
    status route for GET and nothing else, and the [endpoints] member of a
    status response names exactly the routes registered, in order, as do the
    calls it logs. *)
Theorem registered_routes_are_described `{Encoding} am now :
  let '(self, routes, calls) := add_vscode_integration am in
  auth_manager self = am ∧
  chunk_storage self = ∅ ∧
  reported (indexing_status self now) = Some 0%nat ∧
  (λ r, (route_path r, route_methods r, route_endpoint r)) <$> routes =
    [("/index/chunk", ["POST"], Receive_code_chunk);
     ("/index/status", ["GET"], Indexing_status)] ∧
  ∃ s, response_content (indexing_status self now) = StatusContent s ∧
    (endpoints s).*1 = routes ≫= route_names ∧
    Forall2 (λ name call, ∃ rest, call_text call = "  - " +:+ name +:+ rest)
      (routes ≫= route_names) (tail calls).
Proof.
  simpl. rewrite indexing_status_response. split_and!; [done..|].
  eexists. split_and!; [done..|].
  repeat constructor; eexists; reflexivity.
Qed.
